(** * Timestamped account extension items of [src/modules/account.h]

    A shallow embedding of the account record, the account database
    provider interface and the four timestamp-tagged extension items
    ([TSExtItem], [TSBoolExtItem], [TSIntExtItem], [TSStringExtItem])
    together with the last-writer-wins properties of their
    [serialize] / [unserialize] pair. *)

From Stdlib Require Import ZArith Lia Ascii String DecimalString DecimalZ DecimalPos DecimalN.
From stdpp Require Import gmap strings list fin_maps.

Local Open Scope string_scope.
Local Open Scope Z_scope.

#[local] Arguments String.append !s1 s2 : simpl nomatch.

(** ** Platform types

    [time_t] and [long] are the 64-bit signed integers of an LP64 platform,
    [signed int] is 32 bits wide.  Values are kept in [Z]; the places where
    the C library saturates or truncates are written out. *)

Definition time_t : Type := Z.

Definition LONG_MAX : Z := 2 ^ 63 - 1.
Definition LONG_MIN : Z := - 2 ^ 63.

Definition INT_MAX : Z := 2 ^ 31 - 1.
Definition INT_MIN : Z := - 2 ^ 31.

(** Conversion of a [long] to [signed int]: reduction modulo [2^32] into
    the signed range. *)
Definition long_to_int (z : Z) : Z := (z + 2 ^ 31) mod 2 ^ 32 - 2 ^ 31.

(** ** [std::string] operations used by the header

    [std::string::npos] is rendered as [None]. *)

Definition size_type : Type := option nat.
Definition npos : size_type := None.

(** [value.find_first_of(ch)]: the index of the first occurrence of [ch],
    or [npos]. *)
Fixpoint find_first_of (value : string) (ch : ascii) : size_type :=
  match value with
  | EmptyString => npos
  | String a rest =>
      if Ascii.eqb a ch then Some O else S <$> find_first_of rest ch
  end.

Fixpoint string_drop (n : nat) (s : string) : string :=
  match n, s with
  | O, _ => s
  | S n', EmptyString => EmptyString
  | S n', String _ rest => string_drop n' rest
  end.

Fixpoint string_take (n : nat) (s : string) : string :=
  match n, s with
  | O, _ => EmptyString
  | S n', EmptyString => EmptyString
  | S n', String a rest => String a (string_take n' rest)
  end.

(** [value.substr(pos, count)]; a [count] of [npos] (the default argument)
    runs to the end of the string.  Every call in the header has
    [pos <= value.size()], so the [out_of_range] exception cannot arise. *)
Definition substr (value : string) (pos : nat) (count : size_type) : string :=
  match count with
  | None => string_drop pos value
  | Some n => string_take n (string_drop pos value)
  end.

(** [s[0]]: the first character, or the terminating NUL of an empty
    string. *)
Definition char_at0 (s : string) : ascii :=
  match s with
  | EmptyString => Ascii.zero
  | String a _ => a
  end.

(** Every character of [s] passes the test [f]. *)
Fixpoint string_forallb (f : ascii → bool) (s : string) : bool :=
  match s with
  | EmptyString => true
  | String a rest => f a && string_forallb f rest
  end.

Definition is_digit (a : ascii) : bool :=
  bool_decide (is_Some (Ascii.is_nat a)).

(** [s + ch] for a single character. *)
Definition append_char (s : string) (ch : ascii) : string :=
  s ++ String ch EmptyString.

(** ** C library: [strtol] in base 10, [atol], [atoi]

    [atol(s)] is [strtol(s, NULL, 10)]: leading white space is skipped, an
    optional sign is read, then the longest run of decimal digits; the
    result saturates at [LONG_MIN] / [LONG_MAX].  No digits give 0.
    [atoi] converts that result to [int]. *)

Definition isspace (a : ascii) : bool := Ascii.is_space a.

Definition digit_value (a : ascii) : option Z :=
  Z.of_nat <$> Ascii.is_nat a.

Fixpoint skip_spaces (s : string) : string :=
  match s with
  | EmptyString => EmptyString
  | String a rest => if isspace a then skip_spaces rest else s
  end.

Fixpoint strtol_digits (acc : Z) (s : string) : Z :=
  match s with
  | EmptyString => acc
  | String a rest =>
      match digit_value a with
      | Some d => strtol_digits (10 * acc + d) rest
      | None => acc
      end
  end.

Definition saturate_long (z : Z) : Z :=
  if z <? LONG_MIN then LONG_MIN
  else if LONG_MAX <? z then LONG_MAX
  else z.

Definition strtol (s : string) : Z :=
  match skip_spaces s with
  | String "-" rest => saturate_long (- strtol_digits 0 rest)
  | String "+" rest => saturate_long (strtol_digits 0 rest)
  | s' => saturate_long (strtol_digits 0 s')
  end.

Definition atol (s : string) : Z := strtol s.

Definition atoi (s : string) : Z := long_to_int (strtol s).

(** ** [ConvToStr]

    Modelled from the spec: [ConvToStr] is declared outside [account.h].
    The wire format is [<unix-timestamp><space><value>], so an integer is
    rendered in decimal, with a leading minus sign when negative and
    without padding. *)
Definition ConvToStr (z : Z) : string :=
  NilZero.string_of_int (Z.to_int z).

(** ** Extensible containers and [SimpleExtItem<T>]

    Modelled from the spec: [SerializeFormat], [Extensible] and the
    [SimpleExtItem<T>] template are declared outside [account.h].  A record
    maps field keys to typed, timestamp-tagged values, and setting a field
    on a key without a slot creates the slot.  An [Extensible] holds, for
    every extension item, at most one value of the item's type [T]; the
    store is kept per value type and indexed by the item's key.  [get]
    returns the stored value or a null pointer ([None]); [set] stores a
    copy of the value, replacing any previous one. *)

Inductive SerializeFormat : Type :=
  | FORMAT_USER
  | FORMAT_INTERNAL
  | FORMAT_NETWORK
  | FORMAT_PERSIST.

Record Extensible : Type := mkExtensible {
  ext_time : gmap string time_t;
  ext_bool : gmap string (time_t * bool);
  ext_int : gmap string (time_t * Z);
  ext_string : gmap string (time_t * string)
}.

Definition empty_extensible : Extensible :=
  mkExtensible ∅ ∅ ∅ ∅.

Class ExtStore (T : Type) : Type := {
  ext_store : Extensible → gmap string T;
  ext_update : gmap string T → Extensible → Extensible
}.

#[export] Instance time_store : ExtStore time_t := {|
  ext_store := ext_time;
  ext_update m c := mkExtensible m (ext_bool c) (ext_int c) (ext_string c)
|}.

#[export] Instance bool_store : ExtStore (time_t * bool) := {|
  ext_store := ext_bool;
  ext_update m c := mkExtensible (ext_time c) m (ext_int c) (ext_string c)
|}.

#[export] Instance int_store : ExtStore (time_t * Z) := {|
  ext_store := ext_int;
  ext_update m c := mkExtensible (ext_time c) (ext_bool c) m (ext_string c)
|}.

#[export] Instance string_store : ExtStore (time_t * string) := {|
  ext_store := ext_string;
  ext_update m c := mkExtensible (ext_time c) (ext_bool c) (ext_int c) m
|}.

(** What makes [ext_store] / [ext_update] a view of one component of the
    container. *)
Class ExtStoreLaws (T : Type) `{ExtStore T} : Prop := {
  ext_store_update : ∀ m c, ext_store (ext_update m c) = m;
  ext_update_store : ∀ c, ext_update (ext_store c) c = c;
  ext_update_update :
    ∀ m m' c, ext_update m (ext_update m' c) = ext_update m c
}.

Module SimpleExtItem.

Definition get {T : Type} `{ExtStore T} (key : string) (container : Extensible)
  : option T :=
  ext_store container !! key.

Definition set {T : Type} `{ExtStore T} (key : string) (container : Extensible)
  (value : T) : Extensible :=
  ext_update (<[key := value]> (ext_store container)) container.

End SimpleExtItem.

(** ** The generic extension items of the header *)

Module TSExtItem.

Record t : Type := mk { key : string }.

Definition get (self : t) (container : Extensible) : option time_t :=
  SimpleExtItem.get (key self) container.

Definition set (self : t) (container : Extensible) (value : time_t)
  : Extensible :=
  SimpleExtItem.set (key self) container value.

Definition serialize (self : t) (format : SerializeFormat)
  (container : Extensible) (item : option time_t) : string :=
  match item with
  | None => "" (* If we don't have a TS, not if the TS is zero *)
  | Some ts => ConvToStr ts
  end.

Definition unserialize (self : t) (format : SerializeFormat)
  (container : Extensible) (value : string) : Extensible :=
  let ours := get self container in
  let theirs := atol value in
  match ours with
  | None => set self container theirs
  | Some ours_ts =>
      if theirs >? ours_ts then set self container theirs else container
  end.

End TSExtItem.

Module TSBoolExtItem.

Record t : Type := mk { key : string }.

Definition get (self : t) (container : Extensible) : option (time_t * bool) :=
  SimpleExtItem.get (key self) container.

Definition set (self : t) (container : Extensible) (value : time_t * bool)
  : Extensible :=
  SimpleExtItem.set (key self) container value.

Definition serialize (self : t) (format : SerializeFormat)
  (container : Extensible) (item : option (time_t * bool)) : string :=
  match item with
  | None => ""
  | Some p =>
      append_char
        (ConvToStr (fst p)
         ++ (match format with FORMAT_NETWORK => " :" | _ => " " end))
        (if snd p then "1" else "0")%char
  end.

Definition unserialize (self : t) (format : SerializeFormat)
  (container : Extensible) (value : string) : Extensible :=
  let delim := find_first_of value " " in
  let ts := atol (substr value 0 delim) in
  let item :=
    match delim with
    | None => false
    | Some d => Ascii.eqb (char_at0 (substr value (d + 1) npos)) "1"
    end in
  let p := get self container in
  match p with
  | None => set self container (ts, item)
  | Some cur =>
      if ts >? fst cur then set self container (ts, item) else container
  end.

End TSBoolExtItem.

Module TSIntExtItem.

Record t : Type := mk { key : string; default_value : Z }.

Definition get (self : t) (container : Extensible) : option (time_t * Z) :=
  SimpleExtItem.get (key self) container.

Definition set (self : t) (container : Extensible) (value : time_t * Z)
  : Extensible :=
  SimpleExtItem.set (key self) container value.

Definition serialize (self : t) (format : SerializeFormat)
  (container : Extensible) (item : option (time_t * Z)) : string :=
  match item with
  | None => ""
  | Some p =>
      ConvToStr (fst p)
      ++ (match format with FORMAT_NETWORK => " :" | _ => " " end)
      ++ ConvToStr (snd p)
  end.

Definition unserialize (self : t) (format : SerializeFormat)
  (container : Extensible) (value : string) : Extensible :=
  let delim := find_first_of value " " in
  let ts := atol (substr value 0 delim) in
  let item :=
    match delim with
    | None => default_value self
    | Some d => atoi (substr value (d + 1) npos)
    end in
  let p := get self container in
  match p with
  | None => set self container (ts, item)
  | Some cur =>
      if ts >? fst cur then set self container (ts, item) else container
  end.

End TSIntExtItem.

Module TSStringExtItem.

Record t : Type := mk { key : string }.

Definition get (self : t) (container : Extensible)
  : option (time_t * string) :=
  SimpleExtItem.get (key self) container.

Definition set (self : t) (container : Extensible) (value : time_t * string)
  : Extensible :=
  SimpleExtItem.set (key self) container value.

Definition serialize (self : t) (format : SerializeFormat)
  (container : Extensible) (item : option (time_t * string)) : string :=
  match item with
  | None => ""
  | Some p =>
      ConvToStr (fst p)
      ++ (match format with FORMAT_NETWORK => " :" | _ => " " end)
      ++ snd p
  end.

Definition unserialize (self : t) (format : SerializeFormat)
  (container : Extensible) (value : string) : Extensible :=
  let delim := find_first_of value " " in
  let ts := atol (substr value 0 delim) in
  let item :=
    match delim with
    | None => ""
    | Some d => substr value (d + 1) npos
    end in
  let p := get self container in
  match p with
  | None => set self container (ts, item)
  | Some cur =>
      if ts >? fst cur then set self container (ts, item) else container
  end.

End TSStringExtItem.

(** ** Dispatch over the item classes

    The four classes are used through the virtual [serialize] and
    [unserialize] of their common base; [ExtensionItem] is that base
    pointer.  [item_get] reads the slot of an item as a timestamp with its
    payload, whatever the class. *)

Inductive ExtensionItem : Type :=
  | ItemTS (it : TSExtItem.t)
  | ItemTSBool (it : TSBoolExtItem.t)
  | ItemTSInt (it : TSIntExtItem.t)
  | ItemTSString (it : TSStringExtItem.t).

Inductive Payload : Type :=
  | NoPayload
  | BoolPayload (b : bool)
  | IntPayload (i : Z)
  | StringPayload (s : string).

Definition Stored : Type := time_t * Payload.

Definition stamp (v : Stored) : time_t := fst v.

Definition item_get (i : ExtensionItem) (container : Extensible)
  : option Stored :=
  match i with
  | ItemTS it => (λ ts, (ts, NoPayload)) <$> TSExtItem.get it container
  | ItemTSBool it =>
      (λ p, (fst p, BoolPayload (snd p))) <$> TSBoolExtItem.get it container
  | ItemTSInt it =>
      (λ p, (fst p, IntPayload (snd p))) <$> TSIntExtItem.get it container
  | ItemTSString it =>
      (λ p, (fst p, StringPayload (snd p)))
        <$> TSStringExtItem.get it container
  end.

(** [item->serialize(format, container, item->get_raw(container))]. *)
Definition item_serialize (i : ExtensionItem) (format : SerializeFormat)
  (container : Extensible) : string :=
  match i with
  | ItemTS it =>
      TSExtItem.serialize it format container (TSExtItem.get it container)
  | ItemTSBool it =>
      TSBoolExtItem.serialize it format container
        (TSBoolExtItem.get it container)
  | ItemTSInt it =>
      TSIntExtItem.serialize it format container
        (TSIntExtItem.get it container)
  | ItemTSString it =>
      TSStringExtItem.serialize it format container
        (TSStringExtItem.get it container)
  end.

Definition item_unserialize (i : ExtensionItem) (format : SerializeFormat)
  (container : Extensible) (value : string) : Extensible :=
  match i with
  | ItemTS it => TSExtItem.unserialize it format container value
  | ItemTSBool it => TSBoolExtItem.unserialize it format container value
  | ItemTSInt it => TSIntExtItem.unserialize it format container value
  | ItemTSString it => TSStringExtItem.unserialize it format container value
  end.

(** The timestamp segment of a wire line, as the three pair-valued classes
    decode it: the text before the first space, through [atol]. *)
Definition wire_ts (value : string) : time_t :=
  atol (substr value 0 (find_first_of value " ")).

(** The value segment of a wire line: the text after the first space, when
    there is one. *)
Definition wire_segment (value : string) : option string :=
  (λ d, substr value (d + 1) npos) <$> find_first_of value " ".

(** What an [unserialize] of [value] hands to [set] when it replaces the
    slot: the decoded timestamp and the decoded payload of the class. *)
Definition item_incoming (i : ExtensionItem) (value : string) : Stored :=
  match i with
  | ItemTS _ => (atol value, NoPayload)
  | ItemTSBool _ =>
      (wire_ts value,
       BoolPayload
         match wire_segment value with
         | None => false
         | Some seg => Ascii.eqb (char_at0 seg) "1"
         end)
  | ItemTSInt it =>
      (wire_ts value,
       IntPayload
         match wire_segment value with
         | None => TSIntExtItem.default_value it
         | Some seg => atoi seg
         end)
  | ItemTSString _ =>
      (wire_ts value,
       StringPayload
         match wire_segment value with
         | None => ""
         | Some seg => seg
         end)
  end.

(** The payload a class falls back to when the line has no value segment. *)
Definition item_fallback (i : ExtensionItem) : Payload :=
  match i with
  | ItemTS _ => NoPayload
  | ItemTSBool _ => BoolPayload false
  | ItemTSInt it => IntPayload (TSIntExtItem.default_value it)
  | ItemTSString _ => StringPayload ""
  end.

(** The merge rule in the words of the specification: replace when there
    is no current value or the incoming timestamp is strictly greater,
    otherwise keep the current value. *)
Definition lww_merge (current : option Stored) (incoming : Stored)
  : option Stored :=
  match current with
  | None => Some incoming
  | Some cur =>
      if stamp incoming >? stamp cur then Some incoming else Some cur
  end.

(** The condition under which the merge rule replaces. *)
Definition accepts (current : option Stored) (incoming : Stored) : Prop :=
  current = None ∨ ∃ cur, current = Some cur ∧ stamp cur < stamp incoming.

(** Two items share a slot when they are of the same class and have the
    same key. *)
Definition same_slot (i j : ExtensionItem) : Prop :=
  match i, j with
  | ItemTS a, ItemTS b => TSExtItem.key a = TSExtItem.key b
  | ItemTSBool a, ItemTSBool b => TSBoolExtItem.key a = TSBoolExtItem.key b
  | ItemTSInt a, ItemTSInt b => TSIntExtItem.key a = TSIntExtItem.key b
  | ItemTSString a, ItemTSString b =>
      TSStringExtItem.key a = TSStringExtItem.key b
  | _, _ => False
  end.

Definition apply_updates (i : ExtensionItem) (format : SerializeFormat)
  (updates : list string) (container : Extensible) : Extensible :=
  foldl (λ c value, item_unserialize i format c value) container updates.

(** ** Account records

    Modelled from the spec: [irc::string] is declared outside [account.h];
    names are case-insensitive-equivalent strings.  A name is kept as
    written and compared after folding the ASCII capitals. *)

Definition irc_string : Type := string.

Definition irc_tolower (a : ascii) : ascii :=
  let n := N_of_ascii a in
  if ((65 <=? n) && (n <=? 90))%N then ascii_of_N (n + 32) else a.

Fixpoint irc_fold (s : irc_string) : string :=
  match s with
  | EmptyString => EmptyString
  | String a rest => String (irc_tolower a) (irc_fold rest)
  end.

(** [class AccountDBEntry : public Extensible]; [name] and [ts] are the
    [const] members. *)
Record AccountDBEntry : Type := mkAccountDBEntry {
  extensions : Extensible;
  name : irc_string;
  ts : time_t;
  hash_password_ts : time_t;
  connectclass_ts : time_t;
  hash : string;
  password : string;
  connectclass : string
}.

(** The constructor, with its member initialisers. *)
Definition new_AccountDBEntry (nameref : irc_string) (ourTS : time_t)
  (h p : string) (h_p_ts : time_t) (cc : string) (cc_ts : time_t)
  : AccountDBEntry :=
  {| extensions := empty_extensible;
     name := nameref;
     ts := ourTS;
     hash_password_ts := h_p_ts;
     connectclass_ts := cc_ts;
     hash := h;
     password := p;
     connectclass := cc |}.

(** The operations a holder of an [AccountDBEntry*] can perform on the
    record: assignment to one of the five non-[const] members, and a [set]
    or an [unserialize] of an extension item with the record as
    container. *)
Inductive EntryOp : Type :=
  | AssignHash (h : string)
  | AssignPassword (p : string)
  | AssignHashPasswordTS (t : time_t)
  | AssignConnectClass (cc : string)
  | AssignConnectClassTS (t : time_t)
  | ExtSet (T : Type) (store : ExtStore T) (key : string) (value : T)
  | ExtUnserialize (i : ExtensionItem) (format : SerializeFormat)
      (value : string).

Definition with_extensions (e : AccountDBEntry) (c : Extensible)
  : AccountDBEntry :=
  mkAccountDBEntry c (name e) (ts e) (hash_password_ts e) (connectclass_ts e)
    (hash e) (password e) (connectclass e).

Definition apply_op (e : AccountDBEntry) (op : EntryOp) : AccountDBEntry :=
  match op with
  | AssignHash h =>
      mkAccountDBEntry (extensions e) (name e) (ts e) (hash_password_ts e)
        (connectclass_ts e) h (password e) (connectclass e)
  | AssignPassword p =>
      mkAccountDBEntry (extensions e) (name e) (ts e) (hash_password_ts e)
        (connectclass_ts e) (hash e) p (connectclass e)
  | AssignHashPasswordTS t =>
      mkAccountDBEntry (extensions e) (name e) (ts e) t
        (connectclass_ts e) (hash e) (password e) (connectclass e)
  | AssignConnectClass cc =>
      mkAccountDBEntry (extensions e) (name e) (ts e) (hash_password_ts e)
        (connectclass_ts e) (hash e) (password e) cc
  | AssignConnectClassTS t =>
      mkAccountDBEntry (extensions e) (name e) (ts e) (hash_password_ts e)
        t (hash e) (password e) (connectclass e)
  | ExtSet T store key value =>
      with_extensions e (SimpleExtItem.set key (extensions e) value)
  | ExtUnserialize i format value =>
      with_extensions e (item_unserialize i format (extensions e) value)
  end.

Definition apply_ops (e : AccountDBEntry) (ops : list EntryOp)
  : AccountDBEntry :=
  foldl apply_op e ops.

(** ** The account database provider

    [typedef std::map<irc::string, AccountDBEntry*> AccountDB]: the map is
    indexed by the folded name.  The provider state is the database and
    the notifications it has sent. *)

Inductive Notification : Type :=
  | SentAccount (entry : AccountDBEntry)
  | SentUpdate (entry : AccountDBEntry) (field : string)
  | SentRemoval (name : irc_string) (ts : time_t).

Record AccountDBProvider : Type := mkAccountDBProvider {
  db : gmap string AccountDBEntry;
  sent : list Notification
}.

Definition GetDB (self : AccountDBProvider) : gmap string AccountDBEntry :=
  db self.

(** Does an account of that name exist? *)
Definition has_account (self : AccountDBProvider) (nameref : irc_string)
  : bool :=
  bool_decide (is_Some (db self !! irc_fold nameref)).

(** Modelled from the spec: [AddAccount] is pure virtual in [account.h] and
    its implementation is not part of the header.  It fails with a
    conflict, without mutation, if the name already exists locally;
    otherwise it creates the record, adds it to the database, sends it when
    [send] is set, and returns it.  [None] is the NULL result. *)
Definition AddAccount (self : AccountDBProvider) (send : bool)
  (nameref : irc_string) (ourTS : time_t) (h p : string) (h_p_ts : time_t)
  (cc : string) (cc_ts : time_t)
  : option AccountDBEntry * AccountDBProvider :=
  match db self !! irc_fold nameref with
  | Some _ => (None, self)
  | None =>
      let entry := new_AccountDBEntry nameref ourTS h p h_p_ts cc cc_ts in
      (Some entry,
       {| db := <[irc_fold nameref := entry]> (db self);
          sent := if send then sent self ++ [SentAccount entry]
                  else sent self |})
  end.

(** ** Replication of a slot

    A stored value fits the C types of its class when its timestamp is a
    [long] and, for the integer class, its payload is a [signed int]. *)
Definition representable (v : Stored) : Prop :=
  LONG_MIN ≤ stamp v ≤ LONG_MAX
  ∧ match snd v with
    | IntPayload n => INT_MIN ≤ n ≤ INT_MAX
    | _ => True
    end.

(** What [unserialize] decodes from the value segment that [serialize]
    writes in [FORMAT_NETWORK], where the segment starts with a colon. *)
Definition network_read_back (p : Payload) : Payload :=
  match p with
  | NoPayload => NoPayload
  | BoolPayload _ => BoolPayload false
  | IntPayload _ => IntPayload 0
  | StringPayload s => StringPayload (":" ++ s)
  end.

(** ** Sample items and states *)

Definition hash_item : ExtensionItem :=
  ItemTSString (TSStringExtItem.mk "hash").

Definition level_field : TSIntExtItem.t := TSIntExtItem.mk "level" 7.

Definition flag_field : TSBoolExtItem.t := TSBoolExtItem.mk "flag".

(** The hash field at timestamp 10. *)
Definition hash_at_10 : Extensible :=
  item_unserialize hash_item FORMAT_NETWORK empty_extensible "10 X".

Definition level_merged : Extensible :=
  item_unserialize (ItemTSInt level_field) FORMAT_USER empty_extensible
    "1700000000 42".

Definition provider_with_bob : AccountDBProvider :=
  snd (AddAccount (mkAccountDBProvider ∅ []) false "bob" 100 "" "" 0 "" 0).

Definition seen_item : ExtensionItem := ItemTS (TSExtItem.mk "seen").

(** The hash field after a line whose number does not fit a [long]. *)
Definition hash_saturated : Extensible :=
  item_unserialize hash_item FORMAT_USER empty_extensible
    "99999999999999999999 X".

Definition password_item : ExtensionItem :=
  ItemTSString (TSStringExtItem.mk "password").

(** * Properties *)

(** ** Strings *)

Lemma string_app_nil_r (s : string) : s ++ "" = s.
Proof. induction s as [|a s IH]; simpl; [done | by rewrite IH]. Qed.

Lemma string_app_assoc (s1 s2 s3 : string) :
  (s1 ++ s2) ++ s3 = s1 ++ s2 ++ s3.
Proof. induction s1 as [|a s1 IH]; simpl; [done | by rewrite IH]. Qed.

Lemma find_first_of_app (pre rest : string) (ch : ascii) :
  string_forallb (λ a, negb (Ascii.eqb a ch)) pre = true →
  find_first_of (pre ++ String ch rest) ch = Some (String.length pre).
Proof.
  induction pre as [|a pre IH]; simpl.
  - intros _. by rewrite Ascii.eqb_refl.
  - intros [Ha Hpre]%andb_true_iff.
    apply negb_true_iff in Ha. rewrite Ha, (IH Hpre). done.
Qed.

Lemma string_take_app (pre rest : string) :
  string_take (String.length pre) (pre ++ rest) = pre.
Proof. induction pre as [|a pre IH]; simpl; [by destruct rest | by rewrite IH]. Qed.

Lemma string_drop_S_app (pre rest : string) (ch : ascii) :
  string_drop (String.length pre + 1) (pre ++ String ch rest) = rest.
Proof.
  induction pre as [|a pre IH]; simpl; [done | exact IH].
Qed.

(** A line is the text before its first space, the space, and the text
    after it. *)
Lemma find_first_of_split (value : string) (ch : ascii) (d : nat) :
  find_first_of value ch = Some d →
  value = substr value 0 (Some d) ++ String ch (substr value (d + 1) npos)
  ∧ String.length (substr value 0 (Some d)) = d
  ∧ string_forallb (λ a, negb (Ascii.eqb a ch)) (substr value 0 (Some d))
    = true.
Proof.
  unfold substr, npos. simpl. revert d.
  induction value as [|a value IH]; simpl; intros d; [done |].
  destruct (Ascii.eqb a ch) eqn:Ha.
  - intros [= <-]. apply Ascii.eqb_eq in Ha as ->. done.
  - destruct (find_first_of value ch) as [d'|] eqn:Hf; simpl; [|done].
    intros [= <-]. destruct (IH d' eq_refl) as (Hv & Hl & Hn).
    simpl. rewrite Ha, Hl, Hn. split; [|done].
    f_equal. exact Hv.
Qed.

(** ** Decimal rendering and [strtol] *)

Lemma strtol_digits_uint_acc (d : Decimal.uint) (p : positive) (r : string) :
  strtol_digits (Z.pos p) (NilEmpty.string_of_uint d ++ r)
  = strtol_digits (Z.pos (Pos.of_uint_acc d p)) r.
Proof.
  revert p.
  induction d as [|d IH|d IH|d IH|d IH|d IH|d IH|d IH|d IH|d IH|d IH];
    intros p; [done | simpl; rewrite <- IH; f_equal; lia ..].
Qed.

Lemma strtol_digits_uint (d : Decimal.uint) (r : string) :
  strtol_digits 0 (NilEmpty.string_of_uint d ++ r)
  = strtol_digits (Z.of_N (Pos.of_uint d)) r.
Proof.
  induction d as [|d IH|d IH|d IH|d IH|d IH|d IH|d IH|d IH|d IH|d IH];
    [done | exact IH | simpl; apply (strtol_digits_uint_acc d _ r) ..].
Qed.

Lemma strtol_digits_pos (p : positive) :
  strtol_digits 0 (NilEmpty.string_of_uint (Pos.to_uint p)) = Z.pos p.
Proof.
  pose proof (strtol_digits_uint (Pos.to_uint p) "") as Hd.
  rewrite string_app_nil_r, DecimalPos.Unsigned.of_to in Hd. exact Hd.
Qed.

Lemma nilzero_pos (p : positive) :
  NilZero.string_of_uint (Pos.to_uint p)
  = NilEmpty.string_of_uint (Pos.to_uint p).
Proof.
  pose proof (DecimalPos.Unsigned.to_uint_nonnil p) as Hn.
  by destruct (Pos.to_uint p).
Qed.

Lemma strtol_leading_digit (a : ascii) (s : string) :
  is_digit a = true →
  strtol (String a s) = saturate_long (strtol_digits 0 (String a s)).
Proof.
  intros Ha. unfold strtol.
  assert (skip_spaces (String a s) = String a s) as ->.
  { simpl. assert (isspace a = false) as ->; [|done].
    revert Ha. by destruct a as [[] [] [] [] [] [] [] []]. }
  revert Ha. by destruct a as [[] [] [] [] [] [] [] []].
Qed.

Lemma string_of_pos_cons (p : positive) :
  ∃ a s, NilEmpty.string_of_uint (Pos.to_uint p) = String a s
         ∧ is_digit a = true.
Proof.
  pose proof (DecimalPos.Unsigned.to_uint_nonnil p) as Hn.
  destruct (Pos.to_uint p); [done | simpl; eauto ..].
Qed.

Lemma saturate_long_id (z : Z) :
  LONG_MIN ≤ z ≤ LONG_MAX → saturate_long z = z.
Proof.
  unfold saturate_long. intros [Hlo Hhi].
  destruct (Z.ltb_spec z LONG_MIN); [lia |].
  destruct (Z.ltb_spec LONG_MAX z); [lia | done].
Qed.

Lemma saturate_long_range (z : Z) :
  LONG_MIN ≤ saturate_long z ≤ LONG_MAX.
Proof.
  unfold saturate_long.
  destruct (Z.ltb_spec z LONG_MIN); [unfold LONG_MIN, LONG_MAX; lia |].
  destruct (Z.ltb_spec LONG_MAX z); [unfold LONG_MIN, LONG_MAX; lia | lia].
Qed.

(** [atol] never leaves the range of [long]. *)
Lemma atol_range (s : string) : LONG_MIN ≤ atol s ≤ LONG_MAX.
Proof.
  unfold atol, strtol.
  destruct (skip_spaces s) as [|a r]; [apply saturate_long_range |].
  destruct a as [[] [] [] [] [] [] [] []]; apply saturate_long_range.
Qed.

(** Reading back a rendered [long] gives the same number. *)
Lemma atol_ConvToStr (z : Z) :
  LONG_MIN ≤ z ≤ LONG_MAX → atol (ConvToStr z) = z.
Proof.
  intros Hz. unfold atol, ConvToStr.
  destruct z as [|p|p]; simpl.
  - done.
  - rewrite nilzero_pos.
    destruct (string_of_pos_cons p) as (a & s & Hs & Ha).
    rewrite Hs, (strtol_leading_digit a s Ha), <- Hs, strtol_digits_pos.
    by apply saturate_long_id.
  - rewrite nilzero_pos. unfold strtol. simpl.
    rewrite strtol_digits_pos. by apply saturate_long_id.
Qed.

Lemma ConvToStr_no_space (z : Z) :
  string_forallb (λ a, negb (Ascii.eqb a " ")) (ConvToStr z) = true.
Proof.
  assert (∀ d, string_forallb (λ a, negb (Ascii.eqb a " "))
                 (NilEmpty.string_of_uint d) = true) as Hd.
  { induction d; simpl; done. }
  unfold ConvToStr.
  destruct z as [|p|p]; simpl; [done | |]; rewrite nilzero_pos; apply Hd.
Qed.

Lemma ConvToStr_nonempty (z : Z) : ConvToStr z ≠ "".
Proof.
  unfold ConvToStr.
  destruct z as [|p|p]; simpl; [done | | done].
  rewrite nilzero_pos.
  destruct (string_of_pos_cons p) as (a & s & -> & _). done.
Qed.

(** [atoi] never leaves the range of [signed int]. *)
Lemma atoi_range (s : string) : INT_MIN ≤ atoi s ≤ INT_MAX.
Proof.
  unfold atoi, long_to_int, INT_MIN, INT_MAX.
  pose proof (Z.mod_pos_bound (strtol s + 2 ^ 31) (2 ^ 32)). lia.
Qed.

(** The value segment of a line is what follows its first space. *)
Lemma wire_segment_app (pre seg : string) :
  string_forallb (λ a, negb (Ascii.eqb a " ")) pre = true →
  wire_segment (pre ++ String " " seg) = Some seg.
Proof.
  intros Hpre. unfold wire_segment.
  rewrite (find_first_of_app _ _ _ Hpre). simpl. f_equal.
  apply string_drop_S_app.
Qed.

Lemma wire_segment_split (value seg : string) :
  wire_segment value = Some seg →
  ∃ pre, value = pre ++ String " " seg
         ∧ string_forallb (λ a, negb (Ascii.eqb a " ")) pre = true.
Proof.
  unfold wire_segment.
  destruct (find_first_of value " ") as [d|] eqn:Hd; [|done].
  intros [= <-]. destruct (find_first_of_split value " " d Hd) as (Hv & _ & Hn).
  exists (substr value 0 (Some d)). done.
Qed.

(** The timestamp segment of a rendered line reads back. *)
Lemma wire_ts_ConvToStr (z : Z) (rest : string) :
  LONG_MIN ≤ z ≤ LONG_MAX →
  wire_ts (ConvToStr z ++ String " " rest) = z.
Proof.
  intros Hz. unfold wire_ts.
  rewrite (find_first_of_app _ _ _ (ConvToStr_no_space z)).
  unfold substr. simpl. rewrite string_take_app. by apply atol_ConvToStr.
Qed.

(** ** Extension stores *)

#[export] Instance time_store_laws : ExtStoreLaws time_t.
Proof. split; [done | by intros [] | done]. Qed.

#[export] Instance bool_store_laws : ExtStoreLaws (time_t * bool).
Proof. split; [done | by intros [] | done]. Qed.

#[export] Instance int_store_laws : ExtStoreLaws (time_t * Z).
Proof. split; [done | by intros [] | done]. Qed.

#[export] Instance string_store_laws : ExtStoreLaws (time_t * string).
Proof. split; [done | by intros [] | done]. Qed.

Section simple_ext_item.
Context {T : Type} `{ExtStoreLaws T}.

Lemma get_set_eq (key : string) (c : Extensible) (v : T) :
  SimpleExtItem.get key (SimpleExtItem.set key c v) = Some v.
Proof.
  unfold SimpleExtItem.get, SimpleExtItem.set.
  rewrite ext_store_update. apply lookup_insert_eq.
Qed.

Lemma get_set_ne (key key' : string) (c : Extensible) (v : T) :
  key ≠ key' →
  SimpleExtItem.get key' (SimpleExtItem.set key c v)
  = SimpleExtItem.get key' c.
Proof.
  intros Hne. unfold SimpleExtItem.get, SimpleExtItem.set.
  rewrite ext_store_update. by apply lookup_insert_ne.
Qed.

Lemma set_set (key : string) (c : Extensible) (v w : T) :
  SimpleExtItem.set key (SimpleExtItem.set key c v) w
  = SimpleExtItem.set key c w.
Proof.
  unfold SimpleExtItem.set.
  rewrite ext_store_update, ext_update_update, insert_insert_eq. done.
Qed.

End simple_ext_item.

#[local] Arguments SimpleExtItem.get : simpl never.
#[local] Arguments SimpleExtItem.set : simpl never.

(** ** [unserialize] against the merge rule *)

Lemma accepts_dec (current : option Stored) (incoming : Stored) :
  accepts current incoming ∨ ¬ accepts current incoming.
Proof.
  unfold accepts. destruct current as [cur|]; [|by left; left].
  destruct (Z.lt_ge_cases (stamp cur) (stamp incoming)) as [Hlt|Hge].
  - left. right. by exists cur.
  - right. intros [[=] | (cur' & [= <-] & Hlt)]. lia.
Qed.

Lemma lww_merge_accepts (current : option Stored) (incoming : Stored) :
  accepts current incoming → lww_merge current incoming = Some incoming.
Proof.
  unfold lww_merge. intros [-> | (cur & -> & Hlt)]; [done |].
  destruct (Z.gtb_spec (stamp incoming) (stamp cur)); [done | lia].
Qed.

Lemma lww_merge_rejects (current : option Stored) (incoming : Stored) :
  ¬ accepts current incoming → lww_merge current incoming = current.
Proof.
  unfold lww_merge, accepts. intros Hn.
  destruct current as [cur|]; [|by destruct Hn; left].
  destruct (Z.gtb_spec (stamp incoming) (stamp cur)); [|done].
  destruct Hn. right. exists cur. split; [done | lia].
Qed.

Ltac unfold_items :=
  unfold item_get, item_unserialize, item_incoming, wire_ts, wire_segment,
    TSExtItem.unserialize, TSBoolExtItem.unserialize,
    TSIntExtItem.unserialize, TSStringExtItem.unserialize,
    TSExtItem.get, TSBoolExtItem.get, TSIntExtItem.get, TSStringExtItem.get,
    TSExtItem.set, TSBoolExtItem.set, TSIntExtItem.set, TSStringExtItem.set,
    lww_merge, stamp.

(** The slot after an [unserialize] is the merge of the slot before with
    the decoded update. *)
Lemma item_get_unserialize (i : ExtensionItem) (format : SerializeFormat)
  (c : Extensible) (value : string) :
  item_get i (item_unserialize i format c value)
  = lww_merge (item_get i c) (item_incoming i value).
Proof.
  destruct i as [it|it|it|it]; unfold_items; simpl.
  - destruct (SimpleExtItem.get (TSExtItem.key it) c) as [t|] eqn:Hg; simpl.
    + destruct (atol value >? t); [by rewrite get_set_eq | by rewrite Hg].
    + by rewrite get_set_eq.
  - destruct (SimpleExtItem.get (TSBoolExtItem.key it) c) as [[t b]|] eqn:Hg;
      simpl.
    + destruct (_ >? t); rewrite ?get_set_eq, ?Hg; simpl;
        by destruct (find_first_of value " ").
    + rewrite get_set_eq; simpl; by destruct (find_first_of value " ").
  - destruct (SimpleExtItem.get (TSIntExtItem.key it) c) as [[t b]|] eqn:Hg;
      simpl.
    + destruct (_ >? t); rewrite ?get_set_eq, ?Hg; simpl;
        by destruct (find_first_of value " ").
    + rewrite get_set_eq; simpl; by destruct (find_first_of value " ").
  - destruct (SimpleExtItem.get (TSStringExtItem.key it) c) as [[t b]|] eqn:Hg;
      simpl.
    + destruct (_ >? t); rewrite ?get_set_eq, ?Hg; simpl;
        by destruct (find_first_of value " ").
    + rewrite get_set_eq; simpl; by destruct (find_first_of value " ").
Qed.

(** An update that the merge rule does not accept leaves the whole
    container as it was. *)
Lemma item_unserialize_rejected (i : ExtensionItem) (format : SerializeFormat)
  (c : Extensible) (value : string) :
  ¬ accepts (item_get i c) (item_incoming i value) →
  item_unserialize i format c value = c.
Proof.
  unfold accepts.
  destruct i as [it|it|it|it]; unfold_items; simpl; intros Hn.
  - destruct (SimpleExtItem.get (TSExtItem.key it) c) as [t|] eqn:Hg; simpl in *;
      [|by destruct Hn; left].
    destruct (Z.gtb_spec (atol value) t); [|done].
    destruct Hn. right. eexists. split; [done | simpl; lia].
  - destruct (SimpleExtItem.get (TSBoolExtItem.key it) c) as [[t b]|] eqn:Hg;
      simpl in *; [|by destruct Hn; left].
    destruct (Z.gtb_spec (atol (substr value 0 (find_first_of value " "))) t);
      [|done].
    destruct Hn. right. eexists. split; [done | simpl; lia].
  - destruct (SimpleExtItem.get (TSIntExtItem.key it) c) as [[t b]|] eqn:Hg;
      simpl in *; [|by destruct Hn; left].
    destruct (Z.gtb_spec (atol (substr value 0 (find_first_of value " "))) t);
      [|done].
    destruct Hn. right. eexists. split; [done | simpl; lia].
  - destruct (SimpleExtItem.get (TSStringExtItem.key it) c) as [[t b]|] eqn:Hg;
      simpl in *; [|by destruct Hn; left].
    destruct (Z.gtb_spec (atol (substr value 0 (find_first_of value " "))) t);
      [|done].
    destruct Hn. right. eexists. split; [done | simpl; lia].
Qed.

(** X9. An [unserialize] of one item leaves the slot of every other item as
    it was: timestamps of sibling fields are independent. *)
Lemma item_unserialize_frame (i j : ExtensionItem) (format : SerializeFormat)
  (c : Extensible) (value : string) :
  ¬ same_slot i j →
  item_get j (item_unserialize i format c value) = item_get j c.
Proof.
  intros Hne.
  destruct (accepts_dec (item_get i c) (item_incoming i value)) as [Ha|Hn];
    [|by rewrite (item_unserialize_rejected _ _ _ _ Hn)].
  clear Ha. revert Hne.
  destruct i as [a|a|a|a], j as [b|b|b|b]; unfold_items; simpl; intros Hne;
    repeat match goal with
           | |- context [match ?g with Some _ => _ | None => _ end] =>
               destruct g
           | |- context [if ?g then _ else _] => destruct g
           end;
    try done;
    by rewrite get_set_ne.
Qed.

Lemma lww_merge_stamp (current : option Stored) (incoming : Stored) :
  ∃ kept, lww_merge current incoming = Some kept
          ∧ stamp incoming ≤ stamp kept.
Proof.
  unfold lww_merge. destruct current as [cur|].
  - destruct (Z.gtb_spec (stamp incoming) (stamp cur)).
    + exists incoming. split; [done | lia].
    + exists cur. split; [done | lia].
  - exists incoming. split; [done | lia].
Qed.

Lemma accepts_stamp_le (kept incoming : Stored) :
  stamp incoming ≤ stamp kept → ¬ accepts (Some kept) incoming.
Proof. intros Hle [[=] | (cur & [= <-] & Hlt)]. lia. Qed.

(** C1. For each of the four item classes, whatever the slot holds and
    whatever line arrives: [unserialize] stores the decoded (timestamp,
    value) when the slot is empty or the decoded timestamp is strictly
    greater than the stored one; in every other case the container is left
    exactly as it was.  The slot changes if and only if the update is
    accepted.  [unserialize] is a total function with no error result. *)
Theorem unserialize_merge_rule (i : ExtensionItem) (format : SerializeFormat)
  (c : Extensible) (value : string) :
  (accepts (item_get i c) (item_incoming i value) →
   item_get i (item_unserialize i format c value)
   = Some (item_incoming i value))
  ∧ (¬ accepts (item_get i c) (item_incoming i value) →
     item_unserialize i format c value = c)
  ∧ (item_get i (item_unserialize i format c value) ≠ item_get i c
     ↔ accepts (item_get i c) (item_incoming i value)).
Proof.
  split; [|split].
  - intros Ha. rewrite item_get_unserialize. by apply lww_merge_accepts.
  - apply item_unserialize_rejected.
  - split.
    + intros Hne. destruct (accepts_dec (item_get i c) (item_incoming i value))
        as [Ha|Hn]; [done |].
      destruct Hne. by rewrite (item_unserialize_rejected _ _ _ _ Hn).
    + intros Ha. rewrite item_get_unserialize, (lww_merge_accepts _ _ Ha).
      destruct Ha as [-> | (cur & -> & Hlt)]; [done |].
      intros [= Heq]. rewrite Heq in Hlt. lia.
Qed.

(** The stale update of the specification: a string field at timestamp 10
    receives an update with timestamp 5 and stays as it was. *)
Lemma unserialize_merge_rule_witness :
  item_unserialize hash_item FORMAT_NETWORK hash_at_10 "5 Y" = hash_at_10
  ∧ item_get hash_item
      (item_unserialize hash_item FORMAT_NETWORK hash_at_10 "20 Z")
    = Some (20, StringPayload "Z").
Proof.
  split.
  - apply (proj1 (proj2 (unserialize_merge_rule hash_item FORMAT_NETWORK
                           hash_at_10 "5 Y"))).
    intros [Hnone | (cur & Hcur & Hlt)].
    + vm_compute in Hnone. discriminate Hnone.
    + vm_compute in Hcur. injection Hcur as <-.
      vm_compute in Hlt. discriminate Hlt.
  - apply (proj1 (unserialize_merge_rule hash_item FORMAT_NETWORK
                    hash_at_10 "20 Z")).
    right. exists (10, StringPayload "X"). split; [reflexivity |].
    vm_compute. reflexivity.
Defined.

(** C4. Applying the same update line twice in a row leaves the container
    exactly as one application does, for every class, every container and
    every line. *)
Theorem unserialize_idempotent (i : ExtensionItem)
  (format format' : SerializeFormat) (c : Extensible) (u : string) :
  item_unserialize i format' (item_unserialize i format c u) u
  = item_unserialize i format c u.
Proof.
  apply item_unserialize_rejected.
  rewrite item_get_unserialize.
  destruct (lww_merge_stamp (item_get i c) (item_incoming i u))
    as (kept & -> & Hle).
  by apply accepts_stamp_le.
Qed.

(** On an empty slot, an update followed by a fresher one leaves what the
    fresher one alone would have left. *)
Lemma item_unserialize_overwrite (i : ExtensionItem)
  (format format' : SerializeFormat) (c : Extensible) (a b : string) :
  item_get i c = None →
  stamp (item_incoming i a) < stamp (item_incoming i b) →
  item_unserialize i format' (item_unserialize i format c a) b
  = item_unserialize i format' c b.
Proof.
  destruct i as [it|it|it|it]; unfold_items; simpl;
    intros Hnone%fmap_None Hlt; rewrite Hnone, get_set_eq; simpl;
    match goal with
    | |- context [?x >? ?y] =>
        destruct (Z.gtb_spec x y); [apply set_set | lia]
    end.
Qed.

(** C3. A slot starts absent; update A decodes to timestamp 10 and update B
    to timestamp 20.  Applied as [A,B] or as [B,A], or A first and B at a
    later time, the slot ends with B's timestamp and B's value, and the two
    orders give the same container. *)
Theorem unserialize_order_converges (i : ExtensionItem)
  (format : SerializeFormat) (c : Extensible) (a b : string) :
  item_get i c = None →
  stamp (item_incoming i a) = 10 →
  stamp (item_incoming i b) = 20 →
  item_get i (apply_updates i format [a; b] c)
  = Some (20, snd (item_incoming i b))
  ∧ item_get i (apply_updates i format [b; a] c)
    = Some (20, snd (item_incoming i b))
  ∧ item_get i (apply_updates i format [b] (apply_updates i format [a] c))
    = Some (20, snd (item_incoming i b))
  ∧ apply_updates i format [a; b] c = apply_updates i format [b; a] c.
Proof.
  intros Hnone Ha Hb. unfold apply_updates. simpl.
  assert (Some (20, (item_incoming i b).2) = Some (item_incoming i b)) as ->.
  { f_equal. rewrite <- Hb. by destruct (item_incoming i b). }
  assert (item_unserialize i format (item_unserialize i format c a) b
          = item_unserialize i format c b) as Hab.
  { apply item_unserialize_overwrite; [done | lia]. }
  assert (item_unserialize i format (item_unserialize i format c b) a
          = item_unserialize i format c b) as Hba.
  { apply item_unserialize_rejected. rewrite item_get_unserialize, Hnone.
    apply accepts_stamp_le. lia. }
  rewrite Hab, Hba, item_get_unserialize, Hnone. done.
Qed.

Lemma unserialize_order_converges_witness :
  item_get hash_item
    (apply_updates hash_item FORMAT_USER ["10 X"; "20 Y"] empty_extensible)
  = Some (20, StringPayload "Y")
  ∧ item_get hash_item
      (apply_updates hash_item FORMAT_USER ["20 Y"; "10 X"] empty_extensible)
    = Some (20, StringPayload "Y").
Proof.
  destruct (unserialize_order_converges hash_item FORMAT_USER
              empty_extensible "10 X" "20 Y")
    as (Hab & Hba & _); [reflexivity | reflexivity | reflexivity |].
  split; [exact Hab | exact Hba].
Defined.

(** C2, as stated, fails: the empty string that an absent slot serializes
    to does not unserialize to an absent slot. *)
Lemma empty_line_round_trip_counterexample :
  ¬ (∀ (i : ExtensionItem) (format : SerializeFormat) (c : Extensible),
       item_get i c = None →
       item_serialize i format c = ""
       ∧ item_get i (item_unserialize i format c "") = None).
Proof.
  intros Hclaim.
  destruct (Hclaim (ItemTS (TSExtItem.mk "seen")) FORMAT_NETWORK
              empty_extensible eq_refl) as [_ Habsent].
  vm_compute in Habsent. discriminate Habsent.
Qed.

(** C2, amended.  For each class, an absent slot serializes to the empty
    string; unserializing the empty string onto an absent slot stores
    timestamp 0 together with the fallback payload of the class (nothing,
    false, the declared default, the empty string). *)
Theorem empty_line_stores_zero (i : ExtensionItem)
  (format format' : SerializeFormat) (c : Extensible) :
  item_get i c = None →
  item_serialize i format c = ""
  ∧ item_get i (item_unserialize i format' c (item_serialize i format c))
    = Some (0, item_fallback i).
Proof.
  intros Hnone.
  assert (item_serialize i format c = "") as ->.
  { revert Hnone. destruct i as [it|it|it|it]; simpl;
      intros ->%fmap_None; done. }
  split; [done |].
  rewrite item_get_unserialize, Hnone. by destruct i.
Qed.

Lemma empty_line_stores_zero_witness :
  item_serialize (ItemTSInt level_field) FORMAT_NETWORK empty_extensible = ""
  ∧ item_get (ItemTSInt level_field)
      (item_unserialize (ItemTSInt level_field) FORMAT_NETWORK
         empty_extensible
         (item_serialize (ItemTSInt level_field) FORMAT_NETWORK
            empty_extensible))
    = Some (0, IntPayload 7).
Proof.
  apply (empty_line_stores_zero (ItemTSInt level_field) FORMAT_NETWORK
           FORMAT_NETWORK empty_extensible).
  reflexivity.
Defined.

(** C6. Integer class with declared default [d]: a line without a space
    is not rejected.  Its timestamp is read from the whole string, and when
    that timestamp qualifies under the merge rule the slot becomes
    (timestamp, [d]). *)
Theorem int_missing_value_falls_back (it : TSIntExtItem.t)
  (format : SerializeFormat) (c : Extensible) (value : string) :
  find_first_of value " " = npos →
  (TSIntExtItem.get it c = None
   ∨ ∃ cur, TSIntExtItem.get it c = Some cur ∧ fst cur < atol value) →
  TSIntExtItem.get it (TSIntExtItem.unserialize it format c value)
  = Some (atol value, TSIntExtItem.default_value it).
Proof.
  intros Hdelim Hacc.
  unfold TSIntExtItem.unserialize, TSIntExtItem.get, TSIntExtItem.set in *.
  rewrite Hdelim. simpl.
  destruct Hacc as [-> | (cur & -> & Hlt)]; [apply get_set_eq |].
  destruct (Z.gtb_spec (atol value) cur.1); [apply get_set_eq | lia].
Qed.

Lemma int_missing_value_falls_back_witness :
  TSIntExtItem.get level_field
    (TSIntExtItem.unserialize level_field FORMAT_NETWORK empty_extensible
       "1234")
  = Some (1234, 7).
Proof.
  apply (int_missing_value_falls_back level_field FORMAT_NETWORK
           empty_extensible "1234").
  - reflexivity.
  - left. reflexivity.
Defined.

(** C10. Boolean class: when the line has a value segment (the text after
    its first space) and the update is accepted, the stored boolean is true
    exactly when that segment begins with the character 1. *)
Theorem bool_true_iff_segment_starts_with_1 (it : TSBoolExtItem.t)
  (format : SerializeFormat) (c : Extensible) (value seg : string) :
  wire_segment value = Some seg →
  (TSBoolExtItem.get it c = None
   ∨ ∃ cur, TSBoolExtItem.get it c = Some cur ∧ fst cur < wire_ts value) →
  ∃ b : bool,
    TSBoolExtItem.get it (TSBoolExtItem.unserialize it format c value)
    = Some (wire_ts value, b)
    ∧ (b = true ↔ ∃ rest, seg = String "1" rest).
Proof.
  unfold wire_segment, wire_ts. intros Hseg Hacc.
  destruct (find_first_of value " ") as [d|] eqn:Hd; [|done].
  injection Hseg as <-.
  exists (Ascii.eqb (char_at0 (substr value (d + 1) npos)) "1"). split.
  - unfold TSBoolExtItem.unserialize, TSBoolExtItem.get, TSBoolExtItem.set
      in *.
    rewrite Hd.
    destruct Hacc as [-> | (cur & -> & Hlt)]; [apply get_set_eq |].
    match goal with
    | |- context [?x >? ?y] =>
        destruct (Z.gtb_spec x y); [apply get_set_eq | lia]
    end.
  - unfold substr, npos.
    destruct (string_drop (d + 1) value) as [|a rest]; simpl.
    + split; [discriminate | intros [rest Hrest]; discriminate Hrest].
    + rewrite Ascii.eqb_eq. split; [intros ->; eauto |].
      intros [rest' Hrest]. by injection Hrest.
Qed.

Lemma bool_true_iff_segment_starts_with_1_witness :
  ∃ b : bool,
    TSBoolExtItem.get flag_field
      (TSBoolExtItem.unserialize flag_field FORMAT_USER empty_extensible
         "12 1")
    = Some (wire_ts "12 1", b)
    ∧ (b = true ↔ ∃ rest, "1" = String "1" rest).
Proof.
  apply (bool_true_iff_segment_starts_with_1 flag_field FORMAT_USER
           empty_extensible "12 1" "1").
  - reflexivity.
  - left. reflexivity.
Defined.

(** Segments other than a leading 1 decode to false, the network form of
    [serialize] included: a true flag sent in [FORMAT_NETWORK] is read back
    as false. *)
Example bool_other_segments_are_false :
  let decoded line :=
    TSBoolExtItem.get flag_field
      (TSBoolExtItem.unserialize flag_field FORMAT_NETWORK empty_extensible
         line) in
  decoded "12 true" = Some (12, false)
  ∧ decoded "12 yes" = Some (12, false)
  ∧ decoded "12 :1" = Some (12, false)
  ∧ decoded "12 " = Some (12, false)
  ∧ decoded "12 1" = Some (12, true)
  ∧ TSBoolExtItem.serialize flag_field FORMAT_NETWORK empty_extensible
      (Some (12, true)) = "12 :1".
Proof. vm_compute. repeat split. Qed.

(** C9. Timestamp-only class: [serialize] gives the empty string exactly
    when the slot holds no timestamp; a stored timestamp 0 gives the text
    0, so absence and zero stay apart in the serialized form. *)
Theorem ts_serialize_empty_iff_absent (it : TSExtItem.t)
  (format : SerializeFormat) (c : Extensible) (item : option time_t) :
  (TSExtItem.serialize it format c item = "" ↔ item = None)
  ∧ TSExtItem.serialize it format c (Some 0) = "0"
  ∧ TSExtItem.serialize it format c (Some 0)
    ≠ TSExtItem.serialize it format c None.
Proof.
  split; [|split; [reflexivity | vm_compute; discriminate]].
  destruct item as [t|]; simpl; [|done].
  split; [|discriminate]. intros Hs. by destruct (ConvToStr_nonempty t).
Qed.

(** ** Serialized form as a fixed point *)

Lemma item_incoming_range (i : ExtensionItem) (value : string) :
  LONG_MIN ≤ stamp (item_incoming i value) ≤ LONG_MAX.
Proof. destruct i; apply atol_range. Qed.

Lemma format_separator (format : SerializeFormat) (rest : string) :
  ∃ tail,
    (match format with FORMAT_NETWORK => " :" | _ => " " end) ++ rest
    = String " " tail.
Proof. destruct format; simpl; eauto. Qed.

(** The line that [serialize] renders for a stored value decodes to the
    stored timestamp. *)
Lemma item_incoming_serialize (i : ExtensionItem) (format : SerializeFormat)
  (c : Extensible) (v : Stored) :
  item_get i c = Some v →
  LONG_MIN ≤ stamp v ≤ LONG_MAX →
  stamp (item_incoming i (item_serialize i format c)) = stamp v.
Proof.
  destruct i as [it|it|it|it]; unfold item_get, item_serialize, stamp; simpl;
    intros (p & -> & ->)%fmap_Some Hr; simpl in *.
  - by apply atol_ConvToStr.
  - unfold append_char. rewrite string_app_assoc.
    destruct (format_separator format (String (if p.2 then "1" else "0")%char ""))
      as (tail & ->).
    by apply wire_ts_ConvToStr.
  - destruct (format_separator format (ConvToStr p.2)) as (tail & ->).
    by apply wire_ts_ConvToStr.
  - destruct (format_separator format p.2) as (tail & ->).
    by apply wire_ts_ConvToStr.
Qed.

Lemma serialize_is_fixed_point (i : ExtensionItem)
  (format format' : SerializeFormat) (c : Extensible) (v : Stored) :
  item_get i c = Some v →
  LONG_MIN ≤ stamp v ≤ LONG_MAX →
  item_unserialize i format' c (item_serialize i format c) = c.
Proof.
  intros Hget Hr. apply item_unserialize_rejected. rewrite Hget.
  apply accepts_stamp_le.
  rewrite (item_incoming_serialize i format c v Hget Hr). lia.
Qed.

(** C5. For each class (and each declared default), merge any line into an
    empty slot, serialize the result, and merge that line back onto the
    result: nothing changes. *)
Theorem serialize_merge_fixed_point (i : ExtensionItem)
  (format format' format'' : SerializeFormat) (c : Extensible)
  (value : string) :
  item_get i c = None →
  let merged := item_unserialize i format c value in
  item_unserialize i format'' merged (item_serialize i format' merged)
  = merged.
Proof.
  intros Hnone merged.
  apply (serialize_is_fixed_point i format' format'' merged
           (item_incoming i value)).
  - unfold merged. by rewrite item_get_unserialize, Hnone.
  - apply item_incoming_range.
Qed.

Lemma serialize_merge_fixed_point_witness :
  item_serialize (ItemTSInt level_field) FORMAT_NETWORK level_merged
  = "1700000000 :42"
  ∧ item_unserialize (ItemTSInt level_field) FORMAT_NETWORK level_merged
      (item_serialize (ItemTSInt level_field) FORMAT_NETWORK level_merged)
    = level_merged.
Proof.
  split; [reflexivity |].
  apply (serialize_merge_fixed_point (ItemTSInt level_field) FORMAT_USER
           FORMAT_NETWORK FORMAT_NETWORK empty_extensible "1700000000 42").
  reflexivity.
Defined.

(** ** The account database *)

Lemma has_account_true (self : AccountDBProvider) (nameref : irc_string) :
  has_account self nameref = true
  ↔ ∃ entry, db self !! irc_fold nameref = Some entry.
Proof. unfold has_account. by rewrite bool_decide_eq_true. Qed.

Lemma has_account_false (self : AccountDBProvider) (nameref : irc_string) :
  has_account self nameref = false ↔ db self !! irc_fold nameref = None.
Proof.
  unfold has_account. rewrite bool_decide_eq_false.
  by rewrite <- eq_None_not_Some.
Qed.

(** C7. [AddAccount] on a name that already has an account returns NULL
    and leaves the provider as it was.  On a free name it returns the newly
    constructed record, which the database then holds under that name;
    every other name keeps what it had. *)
Theorem AddAccount_conflict_or_added (self : AccountDBProvider) (send : bool)
  (nameref : irc_string) (ourTS : time_t) (h p : string) (h_p_ts : time_t)
  (cc : string) (cc_ts : time_t) :
  (has_account self nameref = true →
   AddAccount self send nameref ourTS h p h_p_ts cc cc_ts = (None, self))
  ∧ (has_account self nameref = false →
     ∃ self',
       AddAccount self send nameref ourTS h p h_p_ts cc cc_ts
       = (Some (new_AccountDBEntry nameref ourTS h p h_p_ts cc cc_ts), self')
       ∧ GetDB self' !! irc_fold nameref
         = Some (new_AccountDBEntry nameref ourTS h p h_p_ts cc cc_ts)
       ∧ has_account self' nameref = true
       ∧ ∀ other, irc_fold other ≠ irc_fold nameref →
                  GetDB self' !! irc_fold other
                  = GetDB self !! irc_fold other).
Proof.
  unfold AddAccount. split.
  - intros (entry & ->)%has_account_true. done.
  - intros Hfree%has_account_false. rewrite Hfree.
    eexists. split; [done |]. unfold GetDB. simpl.
    split; [apply lookup_insert_eq |]. split.
    + apply has_account_true. simpl. eexists. apply lookup_insert_eq.
    + intros other Hne. by apply lookup_insert_ne.
Qed.

(** A second creation of the same name, in another case, is a conflict. *)
Lemma AddAccount_conflict_or_added_witness :
  AddAccount provider_with_bob true "Bob" 50 "" "" 0 "" 0
  = (None, provider_with_bob)
  ∧ ∃ self',
      AddAccount provider_with_bob true "alice" 60 "" "" 0 "" 0
      = (Some (new_AccountDBEntry "alice" 60 "" "" 0 "" 0), self')
      ∧ GetDB self' !! irc_fold "alice"
        = Some (new_AccountDBEntry "alice" 60 "" "" 0 "" 0)
      ∧ has_account self' "alice" = true
      ∧ ∀ other, irc_fold other ≠ irc_fold "alice" →
                 GetDB self' !! irc_fold other
                 = GetDB provider_with_bob !! irc_fold other.
Proof.
  split.
  - apply (proj1 (AddAccount_conflict_or_added provider_with_bob true "Bob"
                    50 "" "" 0 "" 0)).
    vm_compute. reflexivity.
  - apply (proj2 (AddAccount_conflict_or_added provider_with_bob true
                    "alice" 60 "" "" 0 "" 0)).
    vm_compute. reflexivity.
Defined.

(** ** The account record *)

Lemma apply_op_identity (e : AccountDBEntry) (op : EntryOp) :
  name (apply_op e op) = name e ∧ ts (apply_op e op) = ts e.
Proof. by destruct op. Qed.

(** C8. The name and the creation timestamp of a record are those given to
    the constructor, and no sequence of operations on a record changes
    them.  A single operation either assigns one of hash, password,
    connect class and their two timestamps, leaving the extension store
    alone, or works on the extension store ([set], [unserialize]), leaving
    those five members alone. *)
Theorem account_identity_is_fixed (e : AccountDBEntry) (ops : list EntryOp)
  (nameref : irc_string) (ourTS : time_t) (h p : string) (h_p_ts : time_t)
  (cc : string) (cc_ts : time_t) :
  (name (apply_ops e ops) = name e ∧ ts (apply_ops e ops) = ts e)
  ∧ (name (apply_ops (new_AccountDBEntry nameref ourTS h p h_p_ts cc cc_ts)
             ops) = nameref
     ∧ ts (apply_ops (new_AccountDBEntry nameref ourTS h p h_p_ts cc cc_ts)
             ops) = ourTS)
  ∧ (∀ op : EntryOp,
       extensions (apply_op e op) = extensions e
       ∨ (hash (apply_op e op) = hash e
          ∧ password (apply_op e op) = password e
          ∧ connectclass (apply_op e op) = connectclass e
          ∧ hash_password_ts (apply_op e op) = hash_password_ts e
          ∧ connectclass_ts (apply_op e op) = connectclass_ts e)).
Proof.
  assert (∀ e', name (apply_ops e' ops) = name e'
                ∧ ts (apply_ops e' ops) = ts e') as Hinv.
  { unfold apply_ops.
    induction ops as [|op ops IH]; intros e'; simpl; [done |].
    destruct (IH (apply_op e' op)) as [-> ->]. apply apply_op_identity. }
  split; [apply Hinv |]. split; [apply Hinv |].
  intros op. destruct op; simpl; first [by left | by right].
Qed.

(** * Further properties of the extension items *)

(** ** Serialized lines *)

Lemma item_get_none (i : ExtensionItem) (c : Extensible) :
  item_get i c = None →
  ∀ format, item_serialize i format c = "".
Proof.
  destruct i as [it|it|it|it]; simpl; intros ->%fmap_None; done.
Qed.

Lemma string_app_cons_nonempty (s r : string) (a : ascii) :
  s ++ String a r ≠ "".
Proof. by destruct s. Qed.

(** X1. For each of the four classes, [serialize] gives the empty string
    exactly when the slot is absent. *)
Theorem serialize_empty_iff_absent (i : ExtensionItem)
  (format : SerializeFormat) (c : Extensible) :
  item_serialize i format c = "" ↔ item_get i c = None.
Proof.
  split; [|intros Hn; by apply item_get_none].
  destruct i as [it|it|it|it]; unfold item_get, item_serialize; simpl.
  - destruct (TSExtItem.get it c) as [t|]; simpl; [|done].
    intros Hs. by destruct (ConvToStr_nonempty t).
  - destruct (TSBoolExtItem.get it c) as [p|]; simpl; [|done].
    unfold append_char. intros Hs.
    by destruct (string_app_cons_nonempty _ _ _ Hs).
  - destruct (TSIntExtItem.get it c) as [p|]; simpl; [|done].
    destruct (format_separator format (ConvToStr p.2)) as (tail & ->).
    intros Hs. by destruct (string_app_cons_nonempty _ _ _ Hs).
  - destruct (TSStringExtItem.get it c) as [p|]; simpl; [|done].
    destruct (format_separator format p.2) as (tail & ->).
    intros Hs. by destruct (string_app_cons_nonempty _ _ _ Hs).
Qed.

Lemma long_to_int_id (n : Z) :
  INT_MIN ≤ n ≤ INT_MAX → long_to_int n = n.
Proof.
  unfold long_to_int, INT_MIN, INT_MAX. intros Hn.
  rewrite Z.mod_small; lia.
Qed.

Lemma atoi_ConvToStr (n : Z) :
  INT_MIN ≤ n ≤ INT_MAX → atoi (ConvToStr n) = n.
Proof.
  intros Hn. unfold atoi.
  change (strtol (ConvToStr n)) with (atol (ConvToStr n)).
  rewrite atol_ConvToStr; [by apply long_to_int_id |].
  unfold INT_MIN, INT_MAX, LONG_MIN, LONG_MAX in *. lia.
Qed.

Lemma atoi_colon (s : string) : atoi (String ":" s) = 0.
Proof. reflexivity. Qed.

(** What [unserialize] decodes from the line that [serialize] writes in a
    format other than [FORMAT_NETWORK]: the stored value. *)
Lemma item_incoming_plain_line (i : ExtensionItem) (format : SerializeFormat)
  (c : Extensible) (v : Stored) :
  format ≠ FORMAT_NETWORK →
  item_get i c = Some v →
  representable v →
  item_incoming i (item_serialize i format c) = v.
Proof.
  intros Hf Hget [Hts Hp]. revert Hget Hts Hp.
  destruct i as [it|it|it|it]; unfold item_get, item_serialize, stamp; simpl;
    intros (p & -> & ->)%fmap_Some Hts Hp; simpl in *.
  - by rewrite atol_ConvToStr.
  - unfold append_char. rewrite string_app_assoc.
    assert ((match format with FORMAT_NETWORK => " :" | _ => " " end)
            ++ String (if p.2 then "1" else "0")%char ""
            = String " " (String (if p.2 then "1" else "0")%char "")) as ->.
    { by destruct format. }
    rewrite (wire_ts_ConvToStr _ _ Hts).
    rewrite (wire_segment_app _ _ (ConvToStr_no_space p.1)).
    destruct p as [t []]; done.
  - assert ((match format with FORMAT_NETWORK => " :" | _ => " " end)
            ++ ConvToStr p.2 = String " " (ConvToStr p.2)) as ->.
    { by destruct format. }
    rewrite (wire_ts_ConvToStr _ _ Hts).
    rewrite (wire_segment_app _ _ (ConvToStr_no_space p.1)).
    rewrite (atoi_ConvToStr _ Hp). by destruct p.
  - assert ((match format with FORMAT_NETWORK => " :" | _ => " " end)
            ++ p.2 = String " " p.2) as ->.
    { by destruct format. }
    rewrite (wire_ts_ConvToStr _ _ Hts).
    rewrite (wire_segment_app _ _ (ConvToStr_no_space p.1)).
    by destruct p.
Qed.

(** X2. A stored value travels intact in the formats other than
    [FORMAT_NETWORK]: the line [serialize] writes for a slot, unserialized
    onto a container where that slot is absent, stores the same timestamp
    and the same payload.  This holds for strings that contain spaces
    too. *)
Theorem serialize_unserialize_round_trip (i : ExtensionItem)
  (format format' : SerializeFormat) (c c' : Extensible) (v : Stored) :
  format ≠ FORMAT_NETWORK →
  item_get i c = Some v →
  representable v →
  item_get i c' = None →
  item_get i (item_unserialize i format' c' (item_serialize i format c))
  = Some v.
Proof.
  intros Hf Hget Hr Hnone.
  rewrite item_get_unserialize, Hnone. simpl.
  by rewrite (item_incoming_plain_line i format c v Hf Hget Hr).
Qed.

Lemma serialize_unserialize_round_trip_witness :
  item_get hash_item
    (item_unserialize hash_item FORMAT_USER empty_extensible
       (item_serialize hash_item FORMAT_USER hash_at_10))
  = Some (10, StringPayload "X").
Proof.
  apply (serialize_unserialize_round_trip hash_item FORMAT_USER FORMAT_USER
           hash_at_10 empty_extensible (10, StringPayload "X")).
  - discriminate.
  - reflexivity.
  - unfold representable, LONG_MIN, LONG_MAX. simpl. lia.
  - reflexivity.
Defined.

(** X3. In [FORMAT_NETWORK] the line [serialize] writes does not read back to
    the stored value.  Unserialized onto a container where the slot is
    absent it restores the timestamp, but a boolean reads back as false, an
    integer as 0, and a string gains a leading colon. *)
Theorem network_form_read_back (i : ExtensionItem) (format' : SerializeFormat)
  (c c' : Extensible) (v : Stored) :
  item_get i c = Some v →
  LONG_MIN ≤ stamp v ≤ LONG_MAX →
  item_get i c' = None →
  item_get i
    (item_unserialize i format' c' (item_serialize i FORMAT_NETWORK c))
  = Some (stamp v, network_read_back (snd v)).
Proof.
  intros Hget Hts Hnone.
  rewrite item_get_unserialize, Hnone. simpl. f_equal.
  revert Hget Hts.
  destruct i as [it|it|it|it]; unfold item_get, item_serialize, stamp; simpl;
    intros (p & -> & ->)%fmap_Some Hts; simpl in *.
  - by rewrite atol_ConvToStr.
  - unfold append_char. rewrite string_app_assoc. simpl.
    rewrite (wire_ts_ConvToStr _ _ Hts).
    by rewrite (wire_segment_app _ _ (ConvToStr_no_space p.1)).
  - rewrite (wire_ts_ConvToStr _ _ Hts).
    by rewrite (wire_segment_app _ _ (ConvToStr_no_space p.1)).
  - rewrite (wire_ts_ConvToStr _ _ Hts).
    by rewrite (wire_segment_app _ _ (ConvToStr_no_space p.1)).
Qed.

Lemma network_form_read_back_witness :
  item_get hash_item
    (item_unserialize hash_item FORMAT_NETWORK empty_extensible
       (item_serialize hash_item FORMAT_NETWORK hash_at_10))
  = Some (10, StringPayload ":X").
Proof.
  apply (network_form_read_back hash_item FORMAT_NETWORK hash_at_10
           empty_extensible (10, StringPayload "X")).
  - reflexivity.
  - unfold LONG_MIN, LONG_MAX. simpl. lia.
  - reflexivity.
Defined.

(** ** Sequences of updates *)

Lemma item_get_apply_updates (i : ExtensionItem) (format : SerializeFormat)
  (updates : list string) (c : Extensible) :
  item_get i (apply_updates i format updates c)
  = foldl lww_merge (item_get i c) (item_incoming i <$> updates).
Proof.
  unfold apply_updates. revert c.
  induction updates as [|u updates IH]; intros c; simpl; [done |].
  by rewrite IH, item_get_unserialize.
Qed.

Lemma foldl_lww_merge_some (ws : list Stored) (cur : Stored) :
  ∃ w, foldl lww_merge (Some cur) ws = Some w
       ∧ stamp cur ≤ stamp w
       ∧ (∀ x, x ∈ ws → stamp x ≤ stamp w)
       ∧ (w = cur ∨ w ∈ ws).
Proof.
  revert cur. induction ws as [|x ws IH]; intros cur; simpl.
  - exists cur. split; [done |]. split; [lia |]. split; [|by left].
    intros x Hx. by apply elem_of_nil in Hx.
  - destruct (Z.gtb_spec (stamp x) (stamp cur)) as [Hgt|Hle].
    + destruct (IH x) as (w & -> & Hxw & Hall & Hmem).
      exists w. split; [done |]. split; [lia |]. split.
      * intros y [-> | Hy]%elem_of_cons; [done | by apply Hall].
      * right. apply elem_of_cons. destruct Hmem; auto.
    + destruct (IH cur) as (w & -> & Hcw & Hall & Hmem).
      exists w. split; [done |]. split; [done |]. split.
      * intros y [-> | Hy]%elem_of_cons; [lia | by apply Hall].
      * destruct Hmem; [by left | right; apply elem_of_cons; auto].
Qed.

Lemma lww_merge_swap (cur : option Stored) (a b : Stored) :
  stamp a ≠ stamp b →
  lww_merge (lww_merge cur a) b = lww_merge (lww_merge cur b) a.
Proof.
  intros Hne. unfold lww_merge.
  destruct cur as [cur|];
    repeat match goal with
           | |- context [?x >? ?y] => destruct (Z.gtb_spec x y); simpl
           end; try done; lia.
Qed.

Lemma foldl_lww_merge_permutation (ws ws' : list Stored)
  (cur : option Stored) :
  ws ≡ₚ ws' →
  NoDup (stamp <$> ws) →
  foldl lww_merge cur ws = foldl lww_merge cur ws'.
Proof.
  intros Hp. revert cur.
  induction Hp as [|x ws ws' Hp IH|x y ws|ws ws' ws'' Hp1 IH1 Hp2 IH2];
    intros cur Hnd; simpl.
  - done.
  - apply IH. by apply NoDup_cons in Hnd as [_ Hnd].
  - f_equal. apply lww_merge_swap.
    simpl in Hnd. apply NoDup_cons in Hnd as [Hin _].
    intros Heq. apply Hin. rewrite Heq. apply elem_of_cons. by left.
  - rewrite (IH1 cur Hnd). apply IH2. by rewrite <- Hp1.
Qed.

Lemma NoDup_fmap_elem_inj {A B : Type} (g : A → B) (l : list A) (x y : A) :
  NoDup (g <$> l) → x ∈ l → y ∈ l → g x = g y → x = y.
Proof.
  induction l as [|a l IH]; simpl; [by intros _ ?%elem_of_nil |].
  intros [Hnotin Hnd]%NoDup_cons [-> | Hx]%elem_of_cons
    [-> | Hy]%elem_of_cons Heq; [done | | | by apply IH].
  - destruct Hnotin. rewrite Heq. by apply list_elem_of_fmap_2.
  - destruct Hnotin. rewrite <- Heq. by apply list_elem_of_fmap_2.
Qed.

(** X4. Whatever the line, an [unserialize] leaves the slot present: on an
    absent slot every line is accepted, the empty one and one without a
    number included. *)
Theorem unserialize_slot_present (i : ExtensionItem)
  (format : SerializeFormat) (c : Extensible) (value : string) :
  ∃ kept, item_get i (item_unserialize i format c value) = Some kept
          ∧ stamp (item_incoming i value) ≤ stamp kept.
Proof. rewrite item_get_unserialize. apply lww_merge_stamp. Qed.

(** X5. A present slot stays present through any sequence of updates, and its
    timestamp never goes down. *)
Theorem updates_never_lower_timestamp (i : ExtensionItem)
  (format : SerializeFormat) (updates : list string) (c : Extensible)
  (cur : Stored) :
  item_get i c = Some cur →
  ∃ w, item_get i (apply_updates i format updates c) = Some w
       ∧ stamp cur ≤ stamp w
       ∧ ∀ u, u ∈ updates → stamp (item_incoming i u) ≤ stamp w.
Proof.
  intros Hcur. rewrite item_get_apply_updates, Hcur.
  destruct (foldl_lww_merge_some (item_incoming i <$> updates) cur)
    as (w & -> & Hcw & Hall & _).
  exists w. split; [done |]. split; [done |].
  intros u Hu. apply Hall. by apply list_elem_of_fmap_2.
Qed.

Lemma updates_never_lower_timestamp_witness :
  ∃ w, item_get hash_item
         (apply_updates hash_item FORMAT_USER ["5 Y"; "7 Z"] hash_at_10)
       = Some w
       ∧ stamp (10, StringPayload "X") ≤ stamp w
       ∧ ∀ u, u ∈ ["5 Y"; "7 Z"] → stamp (item_incoming hash_item u) ≤ stamp w.
Proof.
  apply (updates_never_lower_timestamp hash_item FORMAT_USER ["5 Y"; "7 Z"]
           hash_at_10 (10, StringPayload "X")).
  reflexivity.
Defined.

(** X6. From an absent slot, a non-empty sequence of updates leaves the value
    of one of the updates, and no update of the sequence has a greater
    timestamp than the one kept. *)
Theorem updates_keep_latest (i : ExtensionItem) (format : SerializeFormat)
  (updates : list string) (c : Extensible) :
  item_get i c = None →
  updates ≠ [] →
  ∃ u, u ∈ updates
       ∧ item_get i (apply_updates i format updates c)
         = Some (item_incoming i u)
       ∧ ∀ u', u' ∈ updates →
               stamp (item_incoming i u') ≤ stamp (item_incoming i u).
Proof.
  intros Hnone Hne. rewrite item_get_apply_updates, Hnone.
  destruct updates as [|u0 updates]; [done |].
  change (foldl lww_merge None (item_incoming i <$> u0 :: updates))
    with (foldl lww_merge (Some (item_incoming i u0))
            (item_incoming i <$> updates)).
  destruct (foldl_lww_merge_some (item_incoming i <$> updates)
              (item_incoming i u0)) as (w & -> & Hcw & Hall & Hmem).
  assert (∃ u, u ∈ u0 :: updates ∧ w = item_incoming i u) as (u & Hu & ->).
  { destruct Hmem as [-> | (u & -> & Hu)%list_elem_of_fmap_1].
    - exists u0. split; [apply elem_of_cons; by left | done].
    - exists u. split; [apply elem_of_cons; by right | done]. }
  exists u. split; [done |]. split; [done |].
  intros u' [-> | Hu']%elem_of_cons; [done |].
  apply Hall. by apply list_elem_of_fmap_2.
Qed.

Lemma updates_keep_latest_witness :
  ∃ u, u ∈ ["10 X"; "30 Z"; "20 Y"]
       ∧ item_get hash_item
           (apply_updates hash_item FORMAT_USER ["10 X"; "30 Z"; "20 Y"]
              empty_extensible)
         = Some (item_incoming hash_item u)
       ∧ ∀ u', u' ∈ ["10 X"; "30 Z"; "20 Y"] →
               stamp (item_incoming hash_item u')
               ≤ stamp (item_incoming hash_item u).
Proof.
  apply (updates_keep_latest hash_item FORMAT_USER ["10 X"; "30 Z"; "20 Y"]
           empty_extensible).
  - reflexivity.
  - discriminate.
Defined.

(** X7. With equal timestamps the first arrival stays: two updates that decode
    to the same timestamp leave, on an absent slot, the value of whichever
    came first, so the two orders end differently when the values
    differ. *)
Theorem equal_timestamps_first_arrival_wins (i : ExtensionItem)
  (format : SerializeFormat) (c : Extensible) (a b : string) :
  item_get i c = None →
  stamp (item_incoming i a) = stamp (item_incoming i b) →
  item_get i (apply_updates i format [a; b] c) = Some (item_incoming i a)
  ∧ item_get i (apply_updates i format [b; a] c) = Some (item_incoming i b).
Proof.
  intros Hnone Heq. rewrite !item_get_apply_updates, Hnone. simpl.
  unfold lww_merge. rewrite Heq.
  destruct (Z.gtb_spec (stamp (item_incoming i b)) (stamp (item_incoming i b)));
    [lia | done].
Qed.

Lemma equal_timestamps_first_arrival_wins_witness :
  item_get hash_item
    (apply_updates hash_item FORMAT_USER ["10 X"; "10 Y"] empty_extensible)
  = Some (10, StringPayload "X")
  ∧ item_get hash_item
      (apply_updates hash_item FORMAT_USER ["10 Y"; "10 X"] empty_extensible)
    = Some (10, StringPayload "Y").
Proof.
  apply (equal_timestamps_first_arrival_wins hash_item FORMAT_USER
           empty_extensible "10 X" "10 Y").
  - reflexivity.
  - reflexivity.
Defined.

Lemma accepts_trans (current : option Stored) (a b : Stored) :
  accepts current a → stamp a < stamp b → accepts current b.
Proof.
  intros [-> | (cur & -> & Hlt)] Hab; [by left |].
  right. exists cur. split; [done | lia].
Qed.

Lemma item_get_unserialize_accepted (i : ExtensionItem)
  (format : SerializeFormat) (c : Extensible) (value : string) :
  accepts (item_get i c) (item_incoming i value) →
  item_get i (item_unserialize i format c value)
  = Some (item_incoming i value).
Proof.
  intros Ha. rewrite item_get_unserialize. by apply lww_merge_accepts.
Qed.

(** An accepted update followed by a fresher one leaves what the fresher
    one alone would have left. *)
Lemma item_unserialize_overwrite_accepted (i : ExtensionItem)
  (format format' : SerializeFormat) (c : Extensible) (a b : string) :
  accepts (item_get i c) (item_incoming i a) →
  stamp (item_incoming i a) < stamp (item_incoming i b) →
  item_unserialize i format' (item_unserialize i format c a) b
  = item_unserialize i format' c b.
Proof.
  unfold accepts.
  destruct i as [it|it|it|it]; unfold_items; simpl; intros Hacc Hlt;
    match goal with
    | |- context [SimpleExtItem.get ?k c] =>
        destruct (SimpleExtItem.get k c) as [cur|] eqn:Hg
    end; simpl in *; rewrite ?get_set_eq; simpl;
    repeat match goal with
           | |- context [?x >? ?y] => destruct (Z.gtb_spec x y); simpl
           end;
    rewrite ?get_set_eq, ?Hg; simpl;
    repeat match goal with
           | |- context [?x >? ?y] => destruct (Z.gtb_spec x y); simpl
           end;
    try apply set_set; try lia;
    destruct Hacc as [[=] | (cur' & [= <-] & Hcur)]; simpl in *; lia.
Qed.

(** A sequence of updates either leaves the container as it was or leaves
    what one accepted update of the sequence alone would have left. *)
Lemma apply_updates_shape (i : ExtensionItem) (format : SerializeFormat)
  (updates : list string) (c : Extensible) :
  apply_updates i format updates c = c
  ∨ ∃ u, u ∈ updates
         ∧ accepts (item_get i c) (item_incoming i u)
         ∧ apply_updates i format updates c = item_unserialize i format c u.
Proof.
  unfold apply_updates. revert c.
  induction updates as [|u updates IH]; intros c; simpl; [by left |].
  destruct (accepts_dec (item_get i c) (item_incoming i u)) as [Ha|Hn].
  - right.
    destruct (IH (item_unserialize i format c u))
      as [-> | (u' & Hu' & Ha' & ->)].
    + exists u. split; [apply elem_of_cons; by left | done].
    + rewrite (item_get_unserialize_accepted _ _ _ _ Ha) in Ha'.
      assert (stamp (item_incoming i u) < stamp (item_incoming i u')) as Hlt.
      { destruct Ha' as [[=] | (cur & [= <-] & Hlt)]. done. }
      exists u'. split; [apply elem_of_cons; by right |].
      split; [by apply (accepts_trans _ _ _ Ha) |].
      by apply item_unserialize_overwrite_accepted.
  - rewrite (item_unserialize_rejected _ _ _ _ Hn).
    destruct (IH c) as [-> | (u' & Hu' & Ha' & ->)]; [by left |].
    right. exists u'. split; [apply elem_of_cons; by right | done].
Qed.

(** X8. Updates whose decoded timestamps are pairwise different can arrive in
    any order: every reordering of the sequence leaves the same
    container. *)
Theorem updates_converge_under_reordering (i : ExtensionItem)
  (format : SerializeFormat) (updates updates' : list string)
  (c : Extensible) :
  updates ≡ₚ updates' →
  NoDup ((λ u, stamp (item_incoming i u)) <$> updates) →
  apply_updates i format updates c = apply_updates i format updates' c.
Proof.
  intros Hp Hnd.
  assert (item_get i (apply_updates i format updates c)
          = item_get i (apply_updates i format updates' c)) as Hslot.
  { rewrite !item_get_apply_updates.
    apply foldl_lww_merge_permutation; [by rewrite Hp |].
    by rewrite <- list_fmap_compose. }
  destruct (apply_updates_shape i format updates c)
    as [Hc | (u & Hu & Ha & Hc)];
    destruct (apply_updates_shape i format updates' c)
      as [Hc' | (u' & Hu' & Ha' & Hc')];
    rewrite Hc, Hc' in *.
  - done.
  - rewrite (item_get_unserialize_accepted _ _ _ _ Ha') in Hslot.
    rewrite Hslot in Ha'.
    destruct (accepts_stamp_le (item_incoming i u') (item_incoming i u'));
      [lia | done].
  - rewrite (item_get_unserialize_accepted _ _ _ _ Ha) in Hslot.
    rewrite <- Hslot in Ha.
    destruct (accepts_stamp_le (item_incoming i u) (item_incoming i u));
      [lia | done].
  - rewrite (item_get_unserialize_accepted _ _ _ _ Ha),
      (item_get_unserialize_accepted _ _ _ _ Ha') in Hslot.
    injection Hslot as Heq.
    assert (u = u') as ->; [|done].
    apply (NoDup_fmap_elem_inj (λ u, stamp (item_incoming i u)) updates);
      [done | done | by rewrite Hp | by rewrite Heq].
Qed.

Lemma updates_converge_under_reordering_witness :
  apply_updates hash_item FORMAT_USER ["10 X"; "30 Z"; "20 Y"]
    empty_extensible
  = apply_updates hash_item FORMAT_USER ["30 Z"; "20 Y"; "10 X"]
      empty_extensible.
Proof.
  apply (updates_converge_under_reordering hash_item FORMAT_USER
           ["10 X"; "30 Z"; "20 Y"] ["30 Z"; "20 Y"; "10 X"]
           empty_extensible).
  - apply (Permutation_cons_append ["30 Z"; "20 Y"] "10 X").
  - compute_done.
Defined.

(** ** Sibling fields *)

(** An [unserialize] of the hash field leaves the password field of the
    same container as it was. *)
Lemma item_unserialize_frame_witness :
  item_get password_item
    (item_unserialize hash_item FORMAT_USER hash_at_10 "20 Y")
  = item_get password_item hash_at_10.
Proof.
  apply (item_unserialize_frame hash_item password_item FORMAT_USER
           hash_at_10 "20 Y").
  simpl. discriminate.
Defined.

(** ** Lines without a usable value segment *)

Lemma item_incoming_no_space (i : ExtensionItem) (value : string) :
  find_first_of value " " = npos →
  item_incoming i value = (atol value, item_fallback i).
Proof.
  intros Hd. destruct i as [it|it|it|it]; simpl; [done | ..];
    unfold wire_ts, wire_segment; rewrite Hd; done.
Qed.

(** X10. For each class, a line without a space is read as a timestamp alone:
    the whole line goes through [atol], and when the update is accepted
    the slot holds that timestamp with the fallback of the class (false
    for a boolean, the declared default for an integer, the empty string
    for a string). *)
Theorem missing_segment_falls_back (i : ExtensionItem)
  (format : SerializeFormat) (c : Extensible) (value : string) :
  find_first_of value " " = npos →
  accepts (item_get i c) (atol value, item_fallback i) →
  item_get i (item_unserialize i format c value)
  = Some (atol value, item_fallback i).
Proof.
  intros Hd Ha. rewrite <- (item_incoming_no_space i value Hd) in *.
  by apply item_get_unserialize_accepted.
Qed.

Lemma missing_segment_falls_back_witness :
  item_get (ItemTSBool flag_field)
    (item_unserialize (ItemTSBool flag_field) FORMAT_USER empty_extensible
       "1234")
  = Some (1234, BoolPayload false).
Proof.
  apply (missing_segment_falls_back (ItemTSBool flag_field) FORMAT_USER
           empty_extensible "1234").
  - reflexivity.
  - left. reflexivity.
Defined.

(** X11. Integer class: the declared default is used only when the line has
    no space.  A line that ends in its first space has an empty value
    segment, which [atoi] reads as 0, whatever the default. *)
Theorem int_empty_segment_reads_zero (it : TSIntExtItem.t)
  (format : SerializeFormat) (c : Extensible) (pre : string) :
  string_forallb (λ a, negb (Ascii.eqb a " ")) pre = true →
  TSIntExtItem.get it c = None →
  TSIntExtItem.get it (TSIntExtItem.unserialize it format c (pre ++ " "))
  = Some (atol pre, 0).
Proof.
  intros Hpre Hnone.
  unfold TSIntExtItem.unserialize, TSIntExtItem.get, TSIntExtItem.set in *.
  rewrite Hnone, get_set_eq, (find_first_of_app pre "" " " Hpre).
  unfold substr, npos. simpl.
  by rewrite string_take_app, string_drop_S_app.
Qed.

Lemma int_empty_segment_reads_zero_witness :
  TSIntExtItem.get level_field
    (TSIntExtItem.unserialize level_field FORMAT_USER empty_extensible
       ("1234" ++ " "))
  = Some (atol "1234", 0).
Proof.
  apply (int_empty_segment_reads_zero level_field FORMAT_USER
           empty_extensible "1234").
  - reflexivity.
  - reflexivity.
Defined.

(** ** Saturated timestamps *)

(** X12. [atol] saturates at [LONG_MAX], and a slot whose timestamp has reached
    [LONG_MAX] accepts nothing more: every later [unserialize] leaves the
    container as it was. *)
Theorem saturated_timestamp_freezes_slot (i : ExtensionItem)
  (format : SerializeFormat) (c : Extensible) (cur : Stored)
  (value : string) :
  item_get i c = Some cur →
  LONG_MAX ≤ stamp cur →
  item_unserialize i format c value = c.
Proof.
  intros Hcur Hmax. apply item_unserialize_rejected. rewrite Hcur.
  apply accepts_stamp_le.
  pose proof (item_incoming_range i value). lia.
Qed.

Lemma saturated_timestamp_freezes_slot_witness :
  item_get hash_item hash_saturated = Some (LONG_MAX, StringPayload "X")
  ∧ item_unserialize hash_item FORMAT_USER hash_saturated
      "9223372036854775807 Y"
    = hash_saturated.
Proof.
  split; [reflexivity |].
  apply (saturated_timestamp_freezes_slot hash_item FORMAT_USER
           hash_saturated (LONG_MAX, StringPayload "X")
           "9223372036854775807 Y").
  - reflexivity.
  - reflexivity.
Defined.
